(** * folly_compat.h: the C++17 compatibility shims, embedded in Rocq

    The header [mobile/ios/RichesReach/folly_compat.h] re-declares three
    templates that C++17 removed from [namespace std]:

    - [std::unary_function] and [std::binary_function], two empty structs
      that only carry member typedefs;
    - [std::auto_ptr], a class with one data member [T* ptr] whose copy
      operations are written to move the pointer out of their source.

    The embedding is shallow.  An [auto_ptr] object is a cell of an object
    store, named by its location (what C++ calls [this] and [&other]); the
    cell holds the value of the data member [ptr].  Every method is a
    computation in a state-and-failure monad over that store; [delete] is
    recorded in a trace, so that "deallocates", "deallocates nothing" and
    "exactly once" are statements about the trace. *)

From stdpp Require Import gmap list fin_maps.

Local Open Scope Z_scope.

(** ** The two function-object descriptors *)

Module unary_function.
(** [template<class Arg, class Result> struct unary_function { ... };]
    The struct has no data member: an object of the type is its sole
    constructor. *)
Inductive t (Arg Result : Type) : Type := mk.

(** [typedef Arg argument_type;] *)
Definition argument_type (Arg Result : Type) : Type := Arg.
(** [typedef Result result_type;] *)
Definition result_type (Arg Result : Type) : Type := Result.
End unary_function.

Module binary_function.
(** [template<class Arg1, class Arg2, class Result>
     struct binary_function { ... };] *)
Inductive t (Arg1 Arg2 Result : Type) : Type := mk.

(** [typedef Arg1 first_argument_type;] *)
Definition first_argument_type (Arg1 Arg2 Result : Type) : Type := Arg1.
(** [typedef Arg2 second_argument_type;] *)
Definition second_argument_type (Arg1 Arg2 Result : Type) : Type := Arg2.
(** [typedef Result result_type;] *)
Definition result_type (Arg1 Arg2 Result : Type) : Type := Result.
End binary_function.

(** ** Memory *)

(** A [T*] is an address; the literal [0] of the source is the null
    pointer. *)
Definition null : Z := 0.

(** Locations of [auto_ptr] objects. *)
Abbreviation loc := positive.

(** [objs] maps every live [auto_ptr] object to the value of its member
    [ptr]; [freed] lists the addresses handed to the deallocator, most
    recent first. *)
Record state : Type := State {
  objs : gmap loc Z;
  freed : list Z
}.

Definition init : state := State ∅ [].

(** Computations: they thread the state and have no result ([None]) where
    the C++ program has none: when a member function runs on an object
    that is not alive, and when the program uses a member function that
    cannot be instantiated. *)
Definition M (A : Type) : Type := state → option (A * state).

Definition ret {A} (a : A) : M A := λ st, Some (a, st).

Definition bind {A B} (m : M A) (k : A → M B) : M B :=
  λ st, match m st with
        | Some (a, st') => k a st'
        | None => None
        end.

Declare Scope cpp_scope.
Delimit Scope cpp_scope with cpp.
Notation "'let*' x := m 'in' k" := (bind m (λ x, k))
  (at level 10, x name, m at level 100, k at level 200) : cpp_scope.
Notation "m ;;; k" := (bind m (λ _, k))
  (at level 100, k at level 200, right associativity) : cpp_scope.
Local Open Scope cpp_scope.

(** Read of the member [ptr] of the object at [this]. *)
Definition load (this : loc) : M Z :=
  λ st, match objs st !! this with
        | Some p => Some (p, st)
        | None => None
        end.

(** [ptr = p;] in the object at [this]. *)
Definition store (this : loc) (p : Z) : M unit :=
  λ st, match objs st !! this with
        | Some _ => Some (tt, State (<[this := p]> (objs st)) (freed st))
        | None => None
        end.

(** The delete-expression [delete p;]: on a null pointer it has no effect,
    otherwise the object at [p] is deallocated. *)
Definition delete_ (p : Z) : M unit :=
  λ st, if decide (p = null) then Some (tt, st)
        else Some (tt, State (objs st) (p :: freed st)).

(** Storage for a new [auto_ptr] object, its member initialised to [p].
    A new object never shares its location with a live one. *)
Definition new_obj (p : Z) : M loc :=
  λ st, let l := fresh (dom (objs st)) in
        Some (l, State (<[l := p]> (objs st)) (freed st)).

(** End of the lifetime of the object at [this]. *)
Definition end_obj (this : loc) : M unit :=
  λ st, Some (tt, State (delete this (objs st)) (freed st)).

(** ** Const qualification *)

Inductive cv : Type := const_ | non_const.

(** The member functions that a body of the class may call on an object. *)
Inductive member : Type :=
  | m_deref | m_arrow | m_get | m_release | m_reset.

(** How each is declared: [operator*], [operator->] and [get] end in
    [const], [release] and [reset] do not, and neither has a second
    overload. *)
Definition member_cv (f : member) : cv :=
  match f with
  | m_deref | m_arrow | m_get => const_
  | m_release | m_reset => non_const
  end.

(** The call [x.f()] is well-formed unless [x] is const-qualified and [f]
    is not a const member function. *)
Definition call_ok (x : cv) (f : member) : bool :=
  match x, member_cv f with
  | const_, non_const => false
  | _, _ => true
  end.

(** A member function of a class template is instantiated where a program
    uses it, and then the whole of its body has to be well-formed,
    whichever of its branches would run.  [calls] lists the member calls
    of the body, each with the qualification of the object it is made on.
    When one of them is ill-formed the function has no instance and the
    program that uses it is rejected. *)
Definition instantiate {A} (calls : list (cv * member)) (body : M A) : M A :=
  if forallb (λ c, call_ok c.1 c.2) calls then body else λ _, None.

(** ** The member functions of [auto_ptr] *)

Module auto_ptr.

(** [explicit auto_ptr(T* p = 0) : ptr(p) {}] *)
Definition ctor (p : Z) : M loc := new_obj p.

Definition ctor_default : M loc := ctor 0.

(** [~auto_ptr() { delete ptr; }] *)
Definition dtor (this : loc) : M unit :=
  let* p := load this in
  delete_ p ;;;
  end_obj this.

(** [T* get() const { return ptr; }] *)
Definition get (this : loc) : M Z := load this.

(** [T& operator*() const { return *ptr; }]
    The result is the address of the object referred to; there is none
    when [ptr] is null. *)
Definition deref (this : loc) : M Z :=
  let* p := load this in
  if decide (p = null) then (λ _, None) else ret p.

(** [T* operator->() const { return ptr; }] *)
Definition arrow (this : loc) : M Z := load this.

(** [T* release() { T* tmp = ptr; ptr = 0; return tmp; }] *)
Definition release (this : loc) : M Z :=
  let* tmp := load this in
  store this 0 ;;;
  ret tmp.

(** [auto_ptr(const auto_ptr& other) : ptr(other.release()) {}]
    The member initialiser runs [release] on [other], then the new object
    starts its life with the result.  [other] is a reference to const, and
    [other.release()] is the one member call of the body. *)
Definition copy_ctor_body (other : loc) : M loc :=
  let* p := release other in
  new_obj p.

Definition copy_ctor_calls : list (cv * member) := [(const_, m_release)].

Definition copy_ctor (other : loc) : M loc :=
  instantiate copy_ctor_calls (copy_ctor_body other).

(** [auto_ptr& operator=(const auto_ptr& other) {
       if (this != &other) { delete ptr; ptr = other.release(); }
       return *this; }]
    The result is the location of [*this].  Here too [other] is a
    reference to const and [other.release()] the one member call. *)
Definition assign_body (this other : loc) : M loc :=
  if decide (this ≠ other) then
    (let* p := load this in
     delete_ p ;;;
     let* q := release other in
     store this q ;;;
     ret this)
  else ret this.

Definition assign_calls : list (cv * member) := [(const_, m_release)].

Definition assign (this other : loc) : M loc :=
  instantiate assign_calls (assign_body this other).

(** [void reset(T* p = 0) { if (ptr != p) { delete ptr; ptr = p; } }] *)
Definition reset (this : loc) (p : Z) : M unit :=
  let* cur := load this in
  if decide (cur ≠ p) then
    (delete_ cur ;;;
     store this p)
  else ret tt.

Definition reset_default (this : loc) : M unit := reset this 0.

End auto_ptr.

(** ** Programs over [auto_ptr] objects *)

(** The operations a client performs on [auto_ptr] objects. *)
Inductive op : Type :=
  | Construct (p : Z)
  | CopyConstruct (other : loc)
  | CopyAssign (this other : loc)
  | Release (this : loc)
  | Reset (this : loc) (p : Z)
  | Destroy (this : loc).

Definition exec (o : op) : M unit :=
  match o with
  | Construct p => auto_ptr.ctor p ;;; ret tt
  | CopyConstruct other => auto_ptr.copy_ctor other ;;; ret tt
  | CopyAssign this other => auto_ptr.assign this other ;;; ret tt
  | Release this => auto_ptr.release this ;;; ret tt
  | Reset this p => auto_ptr.reset this p
  | Destroy this => auto_ptr.dtor this
  end.

Fixpoint run (ops : list op) : M unit :=
  match ops with
  | [] => ret tt
  | o :: ops' => exec o ;;; run ops'
  end.

(** At most one live object holds a given non-null address. *)
Definition single_owner (m : gmap loc Z) : Prop :=
  ∀ l1 l2 a, a ≠ null → m !! l1 = Some a → m !! l2 = Some a → l1 = l2.

(** [p] is null or the member [ptr] of no object of [m]. *)
Definition unheld (m : gmap loc Z) (p : Z) : Prop :=
  p = null ∨ map_Forall (λ _ q, q ≠ p) m.

(** The discipline of the two entry points that take a raw address: the
    address given to the constructor is held by no live object, the one
    given to [reset] by no live object other than [*this]. *)
Definition admissible (o : op) (st : state) : Prop :=
  match o with
  | Construct p => unheld (objs st) p
  | Reset this p => unheld (delete this (objs st)) p
  | _ => True
  end.

#[global] Instance unheld_dec m p : Decision (unheld m p).
Proof. unfold unheld. apply _. Defined.

#[global] Instance admissible_dec o st : Decision (admissible o st).
Proof. destruct o; simpl; apply _. Defined.

(** [run] restricted to the programs that keep that discipline. *)
Fixpoint run_admissible (ops : list op) : M unit :=
  match ops with
  | [] => ret tt
  | o :: ops' =>
      λ st, if decide (admissible o st)
            then (exec o ;;; run_admissible ops') st
            else None
  end.

(** The operations that are neither of the two copy operations. *)
Definition copy_free (o : op) : bool :=
  match o with
  | CopyConstruct _ | CopyAssign _ _ => false
  | _ => true
  end.

(** The locations an operation names. *)
Definition targets (o : op) : list loc :=
  match o with
  | Construct _ => []
  | CopyConstruct other => [other]
  | CopyAssign this other => [this; other]
  | Release this | Reset this _ | Destroy this => [this]
  end.

(** ** A client program *)

(** An owner is built on [x], releases it, and is destroyed. *)
Definition release_then_destroy (x : Z) : M Z :=
  let* o := auto_ptr.ctor x in
  let* r := auto_ptr.release o in
  auto_ptr.dtor o ;;;
  ret r.

(** ** The addresses a program hands to its owners *)

(** The non-null address an operation gives to an owner: the argument of
    the constructor and that of [reset]. *)
Definition given_by (o : op) : list Z :=
  match o with
  | Construct p | Reset _ p => if decide (p = null) then [] else [p]
  | _ => []
  end.

Fixpoint given (ops : list op) : list Z :=
  match ops with
  | [] => []
  | o :: ops' => given_by o ++ given ops'
  end.

(** A state in which deallocation has gone well so far, relative to the
    addresses [U] handed over up to now: one owner per address, no address
    deallocated twice, no live owner on a deallocated address, and nothing
    held or deallocated that was not handed over. *)
Record sound (U : list Z) (st : state) : Prop := Sound {
  sound_single : single_owner (objs st);
  sound_nodup : NoDup (freed st);
  sound_held : ∀ l a, objs st !! l = Some a → a ≠ null →
                      a ∈ U ∧ a ∉ freed st;
  sound_freed : ∀ a, a ∈ freed st → a ∈ U
}.

(** ** Equations of the primitives *)

Section primitives.
Context {A B : Type}.

Lemma bind_Some (m : M A) (k : A → M B) st a st' :
  m st = Some (a, st') → bind m k st = k a st'.
Proof. intros E. unfold bind. by rewrite E. Qed.

Lemma bind_None (m : M A) (k : A → M B) st :
  m st = None → bind m k st = None.
Proof. intros E. unfold bind. by rewrite E. Qed.

Lemma bind_inv (m : M A) (k : A → M B) st b st2 :
  bind m k st = Some (b, st2) →
  ∃ a st1, m st = Some (a, st1) ∧ k a st1 = Some (b, st2).
Proof.
  unfold bind. destruct (m st) as [[a st1]|] eqn:E; [|done].
  intros H. by exists a, st1.
Qed.
End primitives.

Lemma load_live this p st :
  objs st !! this = Some p → load this st = Some (p, st).
Proof. intros E. unfold load. by rewrite E. Qed.

Lemma load_dead this st :
  objs st !! this = None → load this st = None.
Proof. intros E. unfold load. by rewrite E. Qed.

Lemma load_inv this p st st' :
  load this st = Some (p, st') → st' = st ∧ objs st !! this = Some p.
Proof.
  unfold load. destruct (objs st !! this) as [q|]; [|done].
  intros [= -> ->]. done.
Qed.

Lemma store_live this q p st :
  objs st !! this = Some q →
  store this p st = Some (tt, State (<[this := p]> (objs st)) (freed st)).
Proof. intros E. unfold store. by rewrite E. Qed.

Lemma store_inv this p st u st' :
  store this p st = Some (u, st') →
  is_Some (objs st !! this) ∧
  st' = State (<[this := p]> (objs st)) (freed st).
Proof.
  unfold store. destruct (objs st !! this) as [q|] eqn:E; [|done].
  intros [= _ <-]. eauto.
Qed.

Lemma delete_null st : delete_ null st = Some (tt, st).
Proof. done. Qed.

Lemma delete_addr p st :
  p ≠ null → delete_ p st = Some (tt, State (objs st) (p :: freed st)).
Proof. intros Hp. unfold delete_. by destruct (decide (p = null)). Qed.

Lemma fresh_loc_dead (st : state) : objs st !! fresh (dom (objs st)) = None.
Proof. apply not_elem_of_dom, is_fresh. Qed.

Lemma new_obj_eq p st :
  new_obj p st =
  Some (fresh (dom (objs st)),
        State (<[fresh (dom (objs st)) := p]> (objs st)) (freed st)).
Proof. done. Qed.

(** ** What each member function computes *)

Import auto_ptr.

Lemma get_eq this st : get this st = (λ p, (p, st)) <$> objs st !! this.
Proof. unfold get, load. by destruct (objs st !! this). Qed.

Lemma release_live this a st :
  objs st !! this = Some a →
  release this st = Some (a, State (<[this := 0]> (objs st)) (freed st)).
Proof.
  intros E. unfold release.
  rewrite (bind_Some _ _ _ _ _ (load_live _ _ _ E)).
  by rewrite (bind_Some _ _ _ _ _ (store_live _ _ 0 _ E)).
Qed.

Lemma release_dead this st : objs st !! this = None → release this st = None.
Proof. intros E. unfold release. by rewrite (bind_None _ _ _ (load_dead _ _ E)). Qed.

(** Neither copy operation can be instantiated. *)
Lemma copy_ctor_no_instance other st : copy_ctor other st = None.
Proof. done. Qed.

Lemma assign_no_instance this other st : assign this other st = None.
Proof. done. Qed.

(** The two bodies taken by themselves, that is, what they would compute
    were [release] callable on [other]: each moves the address of [other]
    to the target and leaves [other] null.  No program of the header runs
    them. *)
Lemma copy_ctor_body_live other a st :
  objs st !! other = Some a →
  ∃ new, new ≠ other ∧ objs st !! new = None ∧
    copy_ctor_body other st =
    Some (new, State (<[new := a]> (<[other := 0]> (objs st))) (freed st)).
Proof.
  intros E. unfold copy_ctor_body.
  rewrite (bind_Some _ _ _ _ _ (release_live _ _ _ E)).
  rewrite new_obj_eq. cbn [objs freed].
  set (new := fresh (dom (<[other := 0]> (objs st)))).
  assert (new ∉ dom (<[other := 0]> (objs st))) as Hnew by apply is_fresh.
  rewrite dom_insert_L in Hnew.
  exists new. split; [set_solver|]. split; [|done].
  apply not_elem_of_dom. set_solver.
Qed.

Lemma assign_body_self this st : assign_body this this st = Some (this, st).
Proof. unfold assign_body. by destruct (decide (this ≠ this)). Qed.

Lemma assign_body_other this other b a st :
  this ≠ other →
  objs st !! this = Some b → objs st !! other = Some a →
  assign_body this other st =
  Some (this, State (<[this := a]> (<[other := 0]> (objs st)))
                    (if decide (b = null) then freed st else b :: freed st)).
Proof.
  intros Hne Et Es. unfold assign_body.
  destruct (decide (this ≠ other)) as [_|]; [|done].
  rewrite (bind_Some _ _ _ _ _ (load_live _ _ _ Et)).
  unfold bind at 1, delete_.
  destruct (decide (b = null)).
  all: erewrite bind_Some; [|by apply release_live].
  all: erewrite bind_Some;
    [|eapply store_live; cbn [objs]; rewrite lookup_insert_ne; [exact Et|done]].
  all: done.
Qed.

Lemma dtor_live this a st :
  objs st !! this = Some a →
  dtor this st =
  Some (tt, State (delete this (objs st))
                  (if decide (a = null) then freed st else a :: freed st)).
Proof.
  intros E. unfold dtor.
  rewrite (bind_Some _ _ _ _ _ (load_live _ _ _ E)).
  unfold bind, delete_, end_obj. by destruct (decide (a = null)).
Qed.

Lemma reset_same this a st :
  objs st !! this = Some a → reset this a st = Some (tt, st).
Proof.
  intros E. unfold reset.
  rewrite (bind_Some _ _ _ _ _ (load_live _ _ _ E)).
  by destruct (decide (a ≠ a)).
Qed.

Lemma reset_other this a b st :
  objs st !! this = Some a → b ≠ a →
  reset this b st =
  Some (tt, State (<[this := b]> (objs st))
                  (if decide (a = null) then freed st else a :: freed st)).
Proof.
  intros E Hne. unfold reset.
  rewrite (bind_Some _ _ _ _ _ (load_live _ _ _ E)).
  destruct (decide (a ≠ b)) as [_|n]; [|by destruct n; intros ->].
  unfold bind, delete_, store.
  destruct (decide (a = null)); cbn [objs freed]; by rewrite E.
Qed.

(** ** The single-owner invariant *)

Section single_owner.
Implicit Types (m : gmap loc Z) (l : loc) (p a : Z).

Lemma single_owner_empty : single_owner ∅.
Proof. intros l1 l2 a _ H. by rewrite lookup_empty in H. Qed.

Lemma unheld_spec m p :
  unheld m p ↔ p = null ∨ ∀ l, m !! l ≠ Some p.
Proof.
  unfold unheld. split; (intros [->|H]; [by left|right]).
  - intros l E. by apply (H l p E).
  - intros l q E ->. by apply (H l).
Qed.

Lemma single_owner_delete m l : single_owner m → single_owner (delete l m).
Proof.
  intros Hm l1 l2 a Ha H1 H2.
  apply lookup_delete_Some in H1 as [_ H1].
  apply lookup_delete_Some in H2 as [_ H2]. eauto.
Qed.

(** Writing an address that no other object holds. *)
Lemma single_owner_insert m l p :
  single_owner m → unheld (delete l m) p → single_owner (<[l := p]> m).
Proof.
  intros Hm Hp l1 l2 a Ha H1 H2.
  apply unheld_spec in Hp.
  apply lookup_insert_Some in H1 as [[-> ->]|[N1 H1]];
    apply lookup_insert_Some in H2 as [[E2 E]|[N2 H2]]; subst.
  - done.
  - destruct Hp as [->|Hp]; [done|].
    destruct (Hp l2). by rewrite lookup_delete_ne.
  - destruct Hp as [->|Hp]; [done|].
    destruct (Hp l1). by rewrite lookup_delete_ne.
  - eauto.
Qed.

Lemma single_owner_clear m l : single_owner m → single_owner (<[l := 0]> m).
Proof. intros Hm. apply single_owner_insert; [done|by left]. Qed.

End single_owner.

(** A member function called on an object that is not alive fails. *)
Ltac dead_object H E :=
  unfold reset, dtor, release, bind, load in H;
  rewrite E in H; done.

(** An operation that uses a copy operation does not execute. *)
Lemma exec_copy_free o st : is_Some (exec o st) → copy_free o = true.
Proof.
  destruct o as [p|other|this other|this|this p|this]; simpl; try done.
  - rewrite (bind_None _ _ _ (copy_ctor_no_instance _ _)). by intros [? ?].
  - rewrite (bind_None _ _ _ (assign_no_instance _ _ _)). by intros [? ?].
Qed.

(** An admissible operation that executes keeps the invariant. *)
Lemma exec_single_owner o st u st' :
  single_owner (objs st) → admissible o st →
  exec o st = Some (u, st') → single_owner (objs st').
Proof.
  intros Hm Hadm Hex. destruct o as [p|other|this other|this|this p|this];
    simpl in Hadm, Hex.
  - unfold bind, ctor, new_obj, ret in Hex. injection Hex as _ <-.
    apply single_owner_insert; [done|].
    by rewrite delete_id by apply fresh_loc_dead.
  - by rewrite (bind_None _ _ _ (copy_ctor_no_instance _ _)) in Hex.
  - by rewrite (bind_None _ _ _ (assign_no_instance _ _ _)) in Hex.
  - destruct (objs st !! this) as [a|] eqn:E.
    + rewrite (bind_Some _ _ _ _ _ (release_live _ _ _ E)) in Hex.
      injection Hex as _ <-. by apply single_owner_clear.
    + dead_object Hex E.
  - destruct (objs st !! this) as [a|] eqn:E.
    + destruct (decide (p = a)) as [->|Hne].
      * rewrite (reset_same _ _ _ E) in Hex. by injection Hex as _ <-.
      * rewrite (reset_other _ _ _ _ E Hne) in Hex. injection Hex as _ <-.
        by apply single_owner_insert.
    + dead_object Hex E.
  - destruct (objs st !! this) as [a|] eqn:E.
    + rewrite (dtor_live _ _ _ E) in Hex. injection Hex as _ <-.
      by apply single_owner_delete.
    + dead_object Hex E.
Qed.

Lemma run_admissible_single_owner ops : ∀ st u st',
  single_owner (objs st) →
  run_admissible ops st = Some (u, st') → single_owner (objs st').
Proof.
  induction ops as [|o ops IH]; intros st u st' Hm Hrun; simpl in Hrun.
  - by injection Hrun as _ <-.
  - destruct (decide (admissible o st)) as [Hadm|]; [|done].
    apply bind_inv in Hrun as ([] & st1 & Hex & Hrun).
    eapply IH; [|exact Hrun]. by eapply exec_single_owner.
Qed.

(** The restricted runs are runs. *)
Lemma run_admissible_run ops : ∀ st r,
  run_admissible ops st = Some r → run ops st = Some r.
Proof.
  induction ops as [|o ops IH]; intros st [u st'] Hrun; simpl in *; [done|].
  destruct (decide (admissible o st)); [|done].
  apply bind_inv in Hrun as ([] & st1 & Hex & Hrun).
  rewrite (bind_Some _ _ _ _ _ Hex). by apply IH.
Qed.

(** Every operation other than a copy executes on live objects: apart
    from the copy operations, the model fails only where an operation
    names an object that is not alive. *)
Lemma exec_total o st :
  copy_free o = true →
  Forall (λ l, is_Some (objs st !! l)) (targets o) → is_Some (exec o st).
Proof.
  intros Hfree Hlive. destruct o as [p|other|this other|this|this p|this];
    simpl in *; try done.
  - apply Forall_cons in Hlive as [[a Ea] _].
    by rewrite (bind_Some _ _ _ _ _ (release_live _ _ _ Ea)).
  - apply Forall_cons in Hlive as [[a Ea] _].
    destruct (decide (p = a)) as [->|Hne].
    + by rewrite (reset_same _ _ _ Ea).
    + by rewrite (reset_other _ _ _ _ Ea Hne).
  - apply Forall_cons in Hlive as [[a Ea] _].
    by rewrite (dtor_live _ _ _ Ea).
Qed.

Lemma run_admissible_app pre : ∀ post st r,
  run_admissible (pre ++ post) st = Some r →
  ∃ st1, run_admissible pre st = Some (tt, st1) ∧
         run_admissible post st1 = Some r.
Proof.
  induction pre as [|o pre IH]; intros post st r Hrun; simpl in *.
  - by exists st.
  - destruct (decide (admissible o st)); [|done].
    destruct r as [u st']. apply bind_inv in Hrun as ([] & st0 & Hex & Hrun).
    apply IH in Hrun as (st1 & Hpre & Hpost).
    exists st1. by rewrite (bind_Some _ _ _ _ _ Hex).
Qed.

Lemma get_live this a st :
  objs st !! this = Some a → get this st = Some (a, st).
Proof. apply load_live. Qed.

(** ** The properties of the specification *)

(** C8. Constructing an owner from an address [a], null included, and
    then calling [get] returns [a]; [get] returns the member of a live
    object and leaves the whole state as it was. *)
Theorem ctor_get_roundtrip (st : state) (a : Z) :
  (∃ o st', ctor a st = Some (o, st') ∧ objs st !! o = None ∧
            get o st' = Some (a, st')) ∧
  (∀ o, get o st = (λ p, (p, st)) <$> objs st !! o).
Proof.
  split; [|intros o; apply get_eq].
  eexists _, _. split; [apply new_obj_eq|].
  split; [apply fresh_loc_dead|].
  apply get_live. cbn [objs]. apply lookup_insert_eq.
Qed.

(** C2, on the code as it is.  The copy constructor takes
    [const auto_ptr& other] and its member initialiser calls
    [other.release()], a member function that is not const: the call is
    ill-formed, the constructor has no instance, and copy-construction
    from an owner yields no new owner at all, whatever the owner holds. *)
Theorem copy_ctor_not_instantiable (st : state) (o : loc) :
  Exists (λ c, call_ok c.1 c.2 = false) copy_ctor_calls ∧
  copy_ctor o st = None.
Proof. split; [|done]. apply Exists_cons. by left. Qed.

(** C3, on the code as it is.  [operator=] takes [const auto_ptr& other]
    and its body calls [other.release()]: the call is ill-formed, the
    operator has no instance, and no assignment between two owners takes
    place, whatever they hold. *)
Theorem assign_not_instantiable (st : state) (t s : loc) :
  Exists (λ c, call_ok c.1 c.2 = false) assign_calls ∧
  assign t s st = None.
Proof. split; [|done]. apply Exists_cons. by left. Qed.

(** C4. [release] on an owner returns the address the owner holds,
    deallocates nothing, and leaves [o.get() == null]; no other object
    changes. *)
Theorem release_post (st : state) (o : loc) (a : Z) :
  objs st !! o = Some a →
  ∃ st', release o st = Some (a, st') ∧
         freed st' = freed st ∧
         get o st' = Some (null, st') ∧
         (∀ l, l ≠ o → objs st' !! l = objs st !! l).
Proof.
  intros E. eexists. split; [by apply release_live|].
  repeat split; cbn [objs freed].
  - apply get_live. cbn [objs]. apply lookup_insert_eq.
  - intros l Hl. by rewrite lookup_insert_ne.
Qed.

Lemma release_post_witness :
  ∃ st', release 1 (State {[1%positive := 5]} [3]) = Some (5, st') ∧
         freed st' = [3] ∧
         get 1 st' = Some (null, st') ∧
         (∀ l, l ≠ 1%positive →
               objs st' !! l = ({[1%positive := 5]} : gmap loc Z) !! l).
Proof.
  exact (release_post (State {[1%positive := 5]} [3]) 1 5 eq_refl).
Defined.

(** C5. On an owner holding [a], [reset(b)] with [b != a] deletes [a] (one
    deallocation of [a]; none when [a] is null, where [delete] has no
    effect) and leaves [o.get() == b]; [reset(a)] changes nothing: no
    deallocation, and [o.get() == a]. *)
Theorem reset_semantics (st : state) (o : loc) (a : Z) :
  objs st !! o = Some a →
  (∀ b, b ≠ a →
     ∃ st', reset o b st = Some (tt, st') ∧
            get o st' = Some (b, st') ∧
            (a ≠ null → freed st' = a :: freed st) ∧
            (a = null → freed st' = freed st)) ∧
  (reset o a st = Some (tt, st) ∧ get o st = Some (a, st)).
Proof.
  intros E. split; [|by split; [apply reset_same|apply get_live]].
  intros b Hne. eexists. split; [by apply reset_other|].
  repeat split; cbn [objs freed].
  - apply get_live. cbn [objs]. apply lookup_insert_eq.
  - intros Ha. by destruct (decide (a = null)).
  - intros Ha. by destruct (decide (a = null)).
Qed.

Lemma reset_semantics_witness :
  let st := State {[1%positive := 5]} [3] in
  (∀ b, b ≠ 5 →
     ∃ st', reset 1 b st = Some (tt, st') ∧
            get 1 st' = Some (b, st') ∧
            (5 ≠ null → freed st' = 5 :: freed st) ∧
            (5 = null → freed st' = freed st)) ∧
  (reset 1 5 st = Some (tt, st) ∧ get 1 st = Some (5, st)).
Proof.
  exact (reset_semantics (State {[1%positive := 5]} [3]) 1 5 eq_refl).
Defined.

(** C6. Destroying an owner that holds a non-null address deallocates that
    address exactly once; destroying an empty owner deallocates nothing,
    however the owner came to be empty.  So destroying an owner right
    after [release] deallocates nothing. *)
Theorem dtor_deallocation (st : state) (o : loc) (a : Z) :
  objs st !! o = Some a →
  (∃ st', dtor o st = Some (tt, st') ∧
          objs st' !! o = None ∧
          (a ≠ null → freed st' = a :: freed st) ∧
          (a = null → freed st' = freed st)) ∧
  (∃ st', (release o ;;; dtor o) st = Some (tt, st') ∧
          freed st' = freed st).
Proof.
  intros E. repeat split.
  - eexists. split; [by apply dtor_live|].
    repeat split; cbn [objs freed].
    + apply lookup_delete_eq.
    + intros Ha. by destruct (decide (a = null)).
    + intros Ha. by destruct (decide (a = null)).
  - eexists. rewrite (bind_Some _ _ _ _ _ (release_live _ _ _ E)).
    split; [apply (dtor_live _ 0); cbn [objs]; apply lookup_insert_eq|].
    done.
Qed.

Lemma dtor_deallocation_witness :
  let st := State {[1%positive := 5]} [3] in
  (∃ st', dtor 1 st = Some (tt, st') ∧
          objs st' !! 1%positive = None ∧
          (5 ≠ null → freed st' = 5 :: freed st) ∧
          (5 = null → freed st' = freed st)) ∧
  (∃ st', (release 1 ;;; dtor 1) st = Some (tt, st') ∧
          freed st' = freed st).
Proof.
  exact (dtor_deallocation (State {[1%positive := 5]} [3]) 1 5 eq_refl).
Defined.

(** C7, on the code as it is.  In [o = o] the guard [this != &other] is
    false and the body, taken by itself, would return [*this] and touch
    nothing.  But using the operator instantiates all of its body, the
    ill-formed [other.release()] included: the operator has no instance,
    and the header accepts no self-assignment. *)
Theorem self_assign_not_instantiable (st : state) (o : loc) :
  assign_body o o st = Some (o, st) ∧
  Exists (λ c, call_ok c.1 c.2 = false) assign_calls ∧
  assign o o st = None.
Proof.
  split; [apply assign_body_self|]. split; [|done].
  apply Exists_cons. by left.
Qed.

(** C10. [reset()] with the default null argument: on an owner holding a
    non-null [a] it deallocates [a] and leaves [o.get() == null]; on an
    empty owner it changes nothing. *)
Theorem reset_default_clears (st : state) (o : loc) (a : Z) :
  objs st !! o = Some a →
  (a ≠ null →
     ∃ st', reset_default o st = Some (tt, st') ∧
            freed st' = a :: freed st ∧
            get o st' = Some (null, st')) ∧
  (a = null →
     reset_default o st = Some (tt, st) ∧ get o st = Some (null, st)).
Proof.
  intros E. split.
  - intros Ha. eexists. split; [apply reset_other; [exact E|by intros <-]|].
    cbn [objs freed]. split; [by destruct (decide (a = null))|].
    apply get_live. cbn [objs]. apply lookup_insert_eq.
  - intros ->. split; [by apply reset_same|by apply get_live].
Qed.

Lemma reset_default_clears_witness :
  let st := State {[1%positive := 5]} [3] in
  (5 ≠ null →
     ∃ st', reset_default 1 st = Some (tt, st') ∧
            freed st' = 5 :: freed st ∧
            get 1 st' = Some (null, st')) ∧
  (5 = null →
     reset_default 1 st = Some (tt, st) ∧ get 1 st = Some (null, st)).
Proof.
  exact (reset_default_clears (State {[1%positive := 5]} [3]) 1 5 eq_refl).
Defined.

(** C9. The unary descriptor at [(Arg, Result)] names [Arg] as
    [argument_type] and [Result] as [result_type]; the binary descriptor
    at [(Arg1, Arg2, Result)] names [Arg1], [Arg2] and [Result] as
    [first_argument_type], [second_argument_type] and [result_type].
    Neither has state: any two objects of a descriptor type are equal. *)
Theorem descriptor_aliases :
  (∀ Arg Result : Type,
     unary_function.argument_type Arg Result = Arg ∧
     unary_function.result_type Arg Result = Result ∧
     ∀ x y : unary_function.t Arg Result, x = y) ∧
  (∀ Arg1 Arg2 Result : Type,
     binary_function.first_argument_type Arg1 Arg2 Result = Arg1 ∧
     binary_function.second_argument_type Arg1 Arg2 Result = Arg2 ∧
     binary_function.result_type Arg1 Arg2 Result = Result ∧
     ∀ x y : binary_function.t Arg1 Arg2 Result, x = y).
Proof.
  split; intros; repeat split; by intros [] [].
Qed.

(** C1, as the code has it.  The constructor and [reset] adopt whatever
    address they are given, so the invariant is the caller's to keep at
    these two entry points.  In a program that hands them only addresses
    that are null or held by no other live object, at every point of the
    run at most one live object holds a given non-null address; and at
    every such point [release], by which an owner hands its address on,
    returns the address and leaves the owner null, the invariant still
    holding. *)
Theorem single_owner_invariant (pre post : list op) (st : state) :
  run_admissible (pre ++ post) init = Some (tt, st) →
  ∃ st1, run_admissible pre init = Some (tt, st1) ∧
    run pre init = Some (tt, st1) ∧
    single_owner (objs st1) ∧
    (∀ o a, objs st1 !! o = Some a →
       ∃ st2, release o st1 = Some (a, st2) ∧
              get o st2 = Some (null, st2) ∧
              single_owner (objs st2)).
Proof.
  intros Hrun. apply run_admissible_app in Hrun as (st1 & Hpre & _).
  assert (single_owner (objs st1)) as Hm.
  { eapply run_admissible_single_owner; [|exact Hpre].
    apply single_owner_empty. }
  exists st1. split; [done|]. split; [by apply run_admissible_run|].
  split; [done|].
  intros o a E. eexists. split; [by apply release_live|].
  cbn [objs]. split; [|by apply single_owner_clear].
  apply get_live. cbn [objs]. apply lookup_insert_eq.
Qed.

(** Two owners built on the same address both hold it. *)
Lemma construct_twice_two_owners :
  run [Construct 5; Construct 5] init
    = Some (tt, State {[1%positive := 5; 2%positive := 5]} []) ∧
  ¬ single_owner {[1%positive := 5; 2%positive := 5]}.
Proof.
  split; [by vm_compute|].
  intros H. by specialize (H 1%positive 2%positive 5 ltac:(done) eq_refl eq_refl).
Qed.

Lemma single_owner_invariant_witness :
  let pre := [Construct 5; Construct 7; Reset 1 9] in
  ∃ st1, run_admissible pre init = Some (tt, st1) ∧
    run pre init = Some (tt, st1) ∧
    single_owner (objs st1) ∧
    (∀ o a, objs st1 !! o = Some a →
       ∃ st2, release o st1 = Some (a, st2) ∧
              get o st2 = Some (null, st2) ∧
              single_owner (objs st2)).
Proof.
  exact (single_owner_invariant
           [Construct 5; Construct 7; Reset 1 9]
           [Release 2; Destroy 1; Destroy 2]
           (State ∅ [9; 5])
           eq_refl).
Defined.

(** ** A scenario of the specification *)

(** Build on [x], release, destroy: [release] returns [x] and nothing is
    deallocated. *)
Lemma release_then_destroy_spec (x : Z) (st : state) :
  ∃ st', release_then_destroy x st = Some (x, st') ∧
         freed st' = freed st ∧ objs st' = objs st.
Proof.
  unfold release_then_destroy, ctor. set (o := fresh (dom (objs st))).
  rewrite (bind_Some _ _ _ _ _ (new_obj_eq x st)). fold o.
  erewrite bind_Some;
    [|apply release_live; cbn [objs]; apply lookup_insert_eq].
  erewrite bind_Some;
    [|apply (dtor_live _ 0); cbn [objs]; apply lookup_insert_eq].
  eexists. split; [done|]. cbn [objs freed]. split; [done|].
  rewrite insert_insert_eq, delete_insert_eq. apply delete_id, fresh_loc_dead.
Qed.

(** ** The shape of one step *)

(** The deallocations after [delete a]. *)
Lemma delete_freed a st :
  (if decide (a = null) then freed st else a :: freed st)
  = (if decide (a = null) then [] else [a]) ++ freed st.
Proof. by destruct (decide (a = null)). Qed.

(** What an operation that executes has done to the state.  The two copy
    operations do not execute. *)
Lemma exec_inv o st u st' :
  exec o st = Some (u, st') →
  match o with
  | Construct p =>
      ∃ new, objs st !! new = None ∧
        st' = State (<[new := p]> (objs st)) (freed st)
  | CopyConstruct _ | CopyAssign _ _ => False
  | Release this =>
      ∃ a, objs st !! this = Some a ∧
        st' = State (<[this := 0]> (objs st)) (freed st)
  | Reset this p =>
      ∃ a, objs st !! this = Some a ∧
        ((a = p ∧ st' = st) ∨
         (a ≠ p ∧
          st' = State (<[this := p]> (objs st))
                      (if decide (a = null) then freed st
                       else a :: freed st)))
  | Destroy this =>
      ∃ a, objs st !! this = Some a ∧
        st' = State (delete this (objs st))
                    (if decide (a = null) then freed st else a :: freed st)
  end.
Proof.
  intros Hex. destruct o as [p|other|this other|this|this p|this];
    simpl in Hex.
  - unfold bind, ctor, new_obj, ret in Hex. injection Hex as _ <-.
    eexists. split; [apply fresh_loc_dead|done].
  - by rewrite (bind_None _ _ _ (copy_ctor_no_instance _ _)) in Hex.
  - by rewrite (bind_None _ _ _ (assign_no_instance _ _ _)) in Hex.
  - destruct (objs st !! this) as [a|] eqn:E; [|dead_object Hex E].
    rewrite (bind_Some _ _ _ _ _ (release_live _ _ _ E)) in Hex.
    injection Hex as _ <-. by exists a.
  - destruct (objs st !! this) as [a|] eqn:E; [|dead_object Hex E].
    exists a. split; [done|].
    destruct (decide (a = p)) as [->|Hne].
    + rewrite (reset_same _ _ _ E) in Hex. injection Hex as _ <-. by left.
    + rewrite (reset_other _ _ _ _ E) in Hex by done.
      injection Hex as _ <-. by right.
  - destruct (objs st !! this) as [a|] eqn:E; [|dead_object Hex E].
    rewrite (dtor_live _ _ _ E) in Hex. injection Hex as _ <-. by exists a.
Qed.

(** ** What one operation does, and does not do, to the store *)

(** An operation leaves alone every live object it does not name. *)
Theorem exec_frame (o : op) (st st' : state) (l : loc) :
  exec o st = Some (tt, st') →
  l ∉ targets o → is_Some (objs st !! l) →
  objs st' !! l = objs st !! l.
Proof.
  intros Hex Hl [q Hq]. apply exec_inv in Hex.
  destruct o as [p|other|this other|this|this p|this]; simpl in *.
  - destruct Hex as (new & Hnew & ->). cbn [objs].
    apply lookup_insert_ne. congruence.
  - done.
  - done.
  - destruct Hex as (a & _ & ->). cbn [objs].
    apply lookup_insert_ne. set_solver.
  - destruct Hex as (a & _ & [[_ ->]|[_ ->]]); [done|]. cbn [objs].
    apply lookup_insert_ne. set_solver.
  - destruct Hex as (a & _ & ->). cbn [objs].
    apply lookup_delete_ne. set_solver.
Qed.

Lemma exec_frame_witness :
  objs (State {[1%positive := 9; 2%positive := 7]} [5]) !! 2%positive
  = objs (State {[1%positive := 5; 2%positive := 7]} []) !! 2%positive.
Proof.
  refine (exec_frame (Reset 1 9)
            (State {[1%positive := 5; 2%positive := 7]} [])
            (State {[1%positive := 9; 2%positive := 7]} [5])
            2 eq_refl _ _).
  - simpl. rewrite !not_elem_of_cons.
    repeat split; [done..|apply not_elem_of_nil].
  - by exists 7.
Defined.

(** An operation deallocates at most one address, and only this one: the
    non-null address held by the object that is destroyed or reset to a
    different address.  The constructor and [release] deallocate
    nothing. *)
Theorem exec_frees_held (o : op) (st st' : state) :
  exec o st = Some (tt, st') →
  freed st' = freed st ∨
  ∃ this a,
    (o = Destroy this ∨ (∃ p, o = Reset this p ∧ p ≠ a)) ∧
    objs st !! this = Some a ∧ a ≠ null ∧
    freed st' = a :: freed st.
Proof.
  intros Hex. apply exec_inv in Hex.
  destruct o as [p|other|this other|this|this p|this]; simpl in *.
  - destruct Hex as (new & _ & ->). by left.
  - done.
  - done.
  - destruct Hex as (a & _ & ->). by left.
  - destruct Hex as (a & E & [[_ ->]|[Hne ->]]); [by left|].
    cbn [freed]. destruct (decide (a = null)) as [|Ha]; [by left|right].
    exists this, a. split; [|done]. right. exists p. by split.
  - destruct Hex as (a & E & ->).
    cbn [freed]. destruct (decide (a = null)) as [|Ha]; [by left|right].
    exists this, a. split; [by left|done].
Qed.

Lemma exec_frees_held_witness :
  let st := State {[1%positive := 5; 2%positive := 7]} [] in
  let st' := State {[1%positive := 9; 2%positive := 7]} [5] in
  freed st' = freed st ∨
  ∃ this a,
    (Reset 1 9 = Destroy this ∨ (∃ p, Reset 1 9 = Reset this p ∧ p ≠ a)) ∧
    objs st !! this = Some a ∧ a ≠ null ∧
    freed st' = a :: freed st.
Proof.
  exact (exec_frees_held (Reset 1 9)
           (State {[1%positive := 5; 2%positive := 7]} [])
           (State {[1%positive := 9; 2%positive := 7]} [5]) eq_refl).
Defined.

(** When no two objects share an address, an operation leaves no live
    object on the address it has just deallocated. *)
Theorem exec_no_dangling (o : op) (st st' : state) (a : Z) (l : loc) :
  single_owner (objs st) →
  exec o st = Some (tt, st') →
  freed st' = a :: freed st →
  objs st' !! l ≠ Some a.
Proof.
  intros Hm Hex Hfree Hl. apply exec_inv in Hex.
  assert (∀ f : list Z, f ≠ a :: f) as Hcons.
  { intros f Hf. apply (f_equal length) in Hf. simpl in Hf. lia. }
  destruct o as [p|other|this other|this|this p|this]; simpl in *.
  - destruct Hex as (new & _ & ->). by destruct (Hcons (freed st)).
  - done.
  - done.
  - destruct Hex as (b & _ & ->). by destruct (Hcons (freed st)).
  - destruct Hex as (b & E & [[_ ->]|[Hne ->]]);
      [by destruct (Hcons (freed st))|].
    cbn [freed objs] in *.
    destruct (decide (b = null)); [by destruct (Hcons (freed st))|].
    injection Hfree as <-.
    apply lookup_insert_Some in Hl as [[<- ->]|[Hlt Hl]]; [done|].
    by destruct Hlt; apply (Hm this l b).
  - destruct Hex as (b & E & ->). cbn [freed objs] in *.
    destruct (decide (b = null)); [by destruct (Hcons (freed st))|].
    injection Hfree as <-.
    apply lookup_delete_Some in Hl as [Hlt Hl].
    by destruct Hlt; apply (Hm this l b).
Qed.

Lemma single_owner_two (p q : Z) :
  p ≠ q → single_owner {[1%positive := p; 2%positive := q]}.
Proof.
  intros Hpq l1 l2 a Ha H1 H2.
  apply lookup_insert_Some in H1 as [[<- <-]|[N1 H1]];
    apply lookup_insert_Some in H2 as [[<- E2]|[N2 H2]]; try done.
  - apply lookup_singleton_Some in H2 as [<- <-]. done.
  - apply lookup_singleton_Some in H1 as [<- <-]. done.
  - apply lookup_singleton_Some in H1 as [<- _].
    by apply lookup_singleton_Some in H2 as [<- _].
Qed.

Lemma exec_no_dangling_witness :
  objs (State {[2%positive := 7]} [5]) !! 2%positive ≠ Some 5.
Proof.
  refine (exec_no_dangling (Destroy 1)
            (State {[1%positive := 5; 2%positive := 7]} [])
            (State {[2%positive := 7]} [5]) 5 2
            _ eq_refl eq_refl).
  apply single_owner_two. discriminate.
Defined.

(** No operation loses an address: a non-null address held before the
    operation is still held after it, or the operation has deallocated it,
    or the operation is the [release] that returned it to the caller. *)
Theorem exec_no_leak (o : op) (st st' : state) (l : loc) (a : Z) :
  exec o st = Some (tt, st') →
  objs st !! l = Some a → a ≠ null →
  (∃ l', objs st' !! l' = Some a) ∨
  freed st' = a :: freed st ∨
  o = Release l.
Proof.
  intros Hex Hl Ha. apply exec_inv in Hex.
  destruct o as [p|other|this other|this|this p|this]; simpl in *.
  - destruct Hex as (new & Hnew & ->). left. exists l. cbn [objs].
    rewrite lookup_insert_ne; [done|congruence].
  - done.
  - done.
  - destruct Hex as (b & E & ->).
    destruct (decide (l = this)) as [->|Hlt]; [by right; right|].
    left. exists l. cbn [objs]. by rewrite lookup_insert_ne.
  - destruct Hex as (b & E & [[_ ->]|[Hne ->]]); [left; eauto|].
    cbn [objs freed].
    destruct (decide (l = this)) as [->|Hlt].
    { right. left. assert (b = a) as -> by congruence.
      by destruct (decide (a = null)). }
    left. exists l. by rewrite lookup_insert_ne.
  - destruct Hex as (b & E & ->). cbn [objs freed].
    destruct (decide (l = this)) as [->|Hlt].
    { right. left. assert (b = a) as -> by congruence.
      by destruct (decide (a = null)). }
    left. exists l. by rewrite lookup_delete_ne.
Qed.

Lemma exec_no_leak_witness :
  let st' := State {[2%positive := 7]} [5] in
  (∃ l', objs st' !! l' = Some 5) ∨
  freed st' = 5 :: [] ∨
  Destroy 1 = Release 1.
Proof.
  refine (exec_no_leak (Destroy 1)
            (State {[1%positive := 5; 2%positive := 7]} [])
            (State {[2%positive := 7]} [5]) 1 5
            eq_refl eq_refl _).
  discriminate.
Defined.

(** No operation makes up an address: a non-null address held after the
    operation was held before it, or is the argument the operation gave to
    the constructor or to [reset] on that object. *)
Theorem exec_no_invention (o : op) (st st' : state) (l : loc) (a : Z) :
  exec o st = Some (tt, st') →
  objs st' !! l = Some a → a ≠ null →
  (∃ l', objs st !! l' = Some a) ∨
  o = Construct a ∨
  o = Reset l a.
Proof.
  intros Hex Hl Ha. apply exec_inv in Hex.
  destruct o as [p|other|this other|this|this p|this]; simpl in *.
  - destruct Hex as (new & Hnew & ->). cbn [objs] in Hl.
    apply lookup_insert_Some in Hl as [[_ ->]|[_ Hl]]; [by right; left|].
    left. eauto.
  - done.
  - done.
  - destruct Hex as (b & E & ->). cbn [objs] in Hl. left.
    apply lookup_insert_Some in Hl as [[_ <-]|[_ Hl]]; [done|eauto].
  - destruct Hex as (b & E & [[_ ->]|[Hne ->]]); [left; eauto|].
    cbn [objs] in Hl.
    apply lookup_insert_Some in Hl as [[<- ->]|[_ Hl]]; [by right; right|].
    left. eauto.
  - destruct Hex as (b & E & ->). cbn [objs] in Hl. left.
    apply lookup_delete_Some in Hl as [_ Hl]. eauto.
Qed.

Lemma exec_no_invention_witness :
  (∃ l', objs (State {[1%positive := 5]} []) !! l' = Some 9) ∨
  Reset 1 9 = Construct 9 ∨
  Reset 1 9 = Reset 1 9.
Proof.
  refine (exec_no_invention (Reset 1 9)
            (State {[1%positive := 5]} [])
            (State {[1%positive := 9]} [5]) 1 9
            eq_refl eq_refl _).
  discriminate.
Defined.

(** ** Whole runs: no address is deallocated twice *)

Section sound.
Implicit Types (U : list Z) (m : gmap loc Z) (f : list Z).

Lemma sound_mono U U' st :
  (∀ a, a ∈ U → a ∈ U') → sound U st → sound U' st.
Proof.
  intros HU [S1 S2 S3 S4]. split; [done..| |by eauto].
  intros l a Hl Ha. destruct (S3 l a Hl Ha). eauto.
Qed.

Lemma elem_of_given_arg (p : Z) U :
  p ≠ null → p ∈ (if decide (p = null) then [] else [p]) ++ U.
Proof.
  intros Hp. destruct (decide (p = null)); [done|].
  apply elem_of_app. left. apply list_elem_of_singleton. done.
Qed.

Lemma given_arg_fresh (p : Z) U :
  (∀ a, a ∈ (if decide (p = null) then [] else [p]) → a ∉ U) →
  p ≠ null → p ∉ U.
Proof.
  intros Hnew Hp. apply Hnew. destruct (decide (p = null)); [done|].
  by apply list_elem_of_singleton.
Qed.

Lemma sound_init : sound [] init.
Proof.
  split; simpl.
  - apply single_owner_empty.
  - constructor.
  - intros l a H. by rewrite lookup_empty in H.
  - intros a H. by apply elem_of_nil in H.
Qed.

(** A step that deallocates nothing. *)
Lemma sound_keep U U' m f m' :
  sound U (State m f) → single_owner m' →
  (∀ a, a ∈ U → a ∈ U') →
  (∀ l x, m' !! l = Some x → x ≠ null → x ∈ U' ∧ x ∉ f) →
  sound U' (State m' f).
Proof. intros [S1 S2 S3 S4] Hm' HU Hheld. split; simpl in *; eauto. Qed.

(** A step that runs [delete a] on the address [a] of the object [this]. *)
Lemma sound_delete U U' m f m' this a :
  sound U (State m f) → m !! this = Some a → single_owner m' →
  (∀ a, a ∈ U → a ∈ U') →
  (∀ l x, m' !! l = Some x → x ≠ null → x ∈ U' ∧ (x ∉ f) ∧ x ≠ a) →
  sound U' (State m' (if decide (a = null) then f else a :: f)).
Proof.
  intros HS Ht Hm' HU Hheld.
  destruct (decide (a = null)) as [->|Ha].
  { eapply sound_keep; [done..|]. intros l x Hl Hx.
    destruct (Hheld l x Hl Hx) as (? & ? & _). done. }
  destruct HS as [S1 S2 S3 S4]. simpl in *.
  destruct (S3 this a Ht Ha) as [HaU Haf].
  split; simpl.
  - done.
  - by constructor.
  - intros l x Hl Hx. destruct (Hheld l x Hl Hx) as (? & ? & ?).
    split; [done|]. by apply not_elem_of_cons.
  - intros x [->|Hx]%elem_of_cons; eauto.
Qed.

Lemma exec_sound U o st u st' :
  sound U st → (∀ a, a ∈ given_by o → a ∉ U) →
  exec o st = Some (u, st') → sound (given_by o ++ U) st'.
Proof.
  intros HS Hnew Hex. apply exec_inv in Hex.
  pose proof HS as [S1 S2 S3 S4]. destruct st as [m f]. simpl in S1, S2, S3, S4.
  assert (∀ p, p ≠ null → p ∉ U → ∀ l, m !! l ≠ Some p) as Hfresh.
  { intros p Hp HpU l Hl. by destruct (S3 l p Hl Hp). }
  destruct o as [p|other|this other|this|this p|this]; simpl in Hex, Hnew |- *.
  - destruct Hex as (new & Hdead & ->). simpl in *.
    eapply sound_keep; [done| |by intros a Ha; apply elem_of_app; right|].
    + apply single_owner_insert; [done|]. apply unheld_spec.
      destruct (decide (p = null)) as [|Hp]; [by left|right].
      intros l [_ Hl]%lookup_delete_Some. revert Hl. apply Hfresh; [done|].
      apply Hnew. by apply list_elem_of_singleton.
    + intros l x Hl Hx.
      apply lookup_insert_Some in Hl as [[_ ->]|[_ Hl]].
      * split; [by apply elem_of_given_arg|].
        intros Hf. apply (given_arg_fresh x U); eauto.
      * destruct (S3 l x Hl Hx). split; [|done].
        apply elem_of_app. by right.
  - done.
  - done.
  - destruct Hex as (a & E & ->). simpl in *.
    eapply sound_keep; [done|by apply single_owner_clear|done|].
    intros l x Hl Hx.
    apply lookup_insert_Some in Hl as [[_ <-]|[_ Hl]]; [done|eauto].
  - destruct Hex as (a & E & [[_ ->]|[Hne ->]]).
    { eapply sound_mono; [|done]. intros x Hx. apply elem_of_app. by right. }
    simpl in *.
    eapply sound_delete;
      [done..| |by intros x Hx; apply elem_of_app; right|].
    + apply single_owner_insert; [done|]. apply unheld_spec.
      destruct (decide (p = null)) as [|Hp]; [by left|right].
      intros l [_ Hl]%lookup_delete_Some. revert Hl. apply Hfresh; [done|].
      apply Hnew. by apply list_elem_of_singleton.
    + intros l x Hl Hx.
      apply lookup_insert_Some in Hl as [[_ ->]|[Hlt Hl]].
      * split_and!; [by apply elem_of_given_arg| |done].
        intros Hf. apply (given_arg_fresh x U); eauto.
      * destruct (S3 l x Hl Hx). split_and!; [|done|].
        { apply elem_of_app. by right. }
        intros ->. by destruct Hlt; apply (S1 this l a).
  - destruct Hex as (a & E & ->). simpl in *.
    eapply sound_delete; [done..|by apply single_owner_delete|done|].
    intros l x [Hlt Hl]%lookup_delete_Some Hx.
    destruct (S3 l x Hl Hx). split_and!; [done..|].
    intros ->. by destruct Hlt; apply (S1 this l a).
Qed.

Lemma run_sound ops : ∀ U st u st',
  sound U st → NoDup (given ops) → (∀ a, a ∈ given ops → a ∉ U) →
  run ops st = Some (u, st') → sound (given ops ++ U) st'.
Proof.
  induction ops as [|o ops IH]; intros U st u st' HS Hnd Hnew Hrun;
    simpl in *.
  - by injection Hrun as _ <-.
  - apply bind_inv in Hrun as (u1 & st1 & Hex & Hrun).
    apply NoDup_app in Hnd as (Hnd1 & Hdisj & Hnd2).
    eapply sound_mono; cycle 1.
    + eapply (IH (given_by o ++ U)); [|done| |done].
      * eapply exec_sound; [done| |done].
        intros a Ha. apply Hnew, elem_of_app. by left.
      * intros a Ha [Hin|Hin]%elem_of_app; [by eapply Hdisj|].
        eapply Hnew; [|done]. apply elem_of_app. by right.
    + intros a. rewrite !elem_of_app. tauto.
Qed.
End sound.

(** In a program that hands every non-null address to an owner at most
    once, whatever else it does, no address is deallocated twice, no two
    live owners share an address, no live owner is left on a deallocated
    address, and only addresses that were handed over are deallocated. *)
Theorem run_no_double_free (ops : list op) (st : state) :
  NoDup (given ops) →
  run ops init = Some (tt, st) →
  NoDup (freed st) ∧
  single_owner (objs st) ∧
  (∀ l a, objs st !! l = Some a → a ≠ null → a ∉ freed st) ∧
  (∀ a, a ∈ freed st → a ∈ given ops).
Proof.
  intros Hnd Hrun.
  destruct (run_sound ops [] init tt st sound_init Hnd) as [S1 S2 S3 S4];
    [by intros a _ H%elem_of_nil|done|].
  split_and!; [done..| |].
  - intros l a Hl Ha. by destruct (S3 l a Hl Ha).
  - intros a Ha. apply S4 in Ha. by rewrite app_nil_r in Ha.
Qed.

Lemma run_no_double_free_witness :
  let ops := [Construct 5; Construct 7; Reset 1 9; Release 2;
              Destroy 1; Destroy 2] in
  let st := State ∅ [9; 5] in
  NoDup (freed st) ∧
  single_owner (objs st) ∧
  (∀ l a, objs st !! l = Some a → a ≠ null → a ∉ freed st) ∧
  (∀ a, a ∈ freed st → a ∈ given ops).
Proof.
  refine (run_no_double_free
            [Construct 5; Construct 7; Reset 1 9; Release 2;
             Destroy 1; Destroy 2]
            (State ∅ [9; 5]) _ eq_refl).
  simpl. apply (bool_decide_unpack _). reflexivity.
Defined.

Lemma exec_tracked (U : list Z) o st u st' :
  (∀ l a, objs st !! l = Some a → a ≠ null → a ∈ U) →
  (∀ a, a ∈ freed st → a ∈ U) →
  exec o st = Some (u, st') →
  (∀ l a, objs st' !! l = Some a → a ≠ null → a ∈ given_by o ++ U) ∧
  (∀ a, a ∈ freed st' → a ∈ given_by o ++ U).
Proof.
  intros Hheld Hfreed Hex. apply exec_inv in Hex.
  assert (∀ b f x, x ∈ (if decide (b = null) then f else b :: f) →
                   x = b ∧ b ≠ null ∨ x ∈ f) as Hdel.
  { intros b f x. destruct (decide (b = null)); [by right|].
    intros [->|]%elem_of_cons; eauto. }
  destruct o as [p|other|this other|this|this p|this]; simpl in Hex |- *.
  - destruct Hex as (new & _ & ->). simpl. split.
    + intros l a [[_ ->]|[_ Hl]]%lookup_insert_Some Ha.
      * by apply elem_of_given_arg.
      * apply elem_of_app. right. eauto.
    + intros a Ha. apply elem_of_app. right. eauto.
  - done.
  - done.
  - destruct Hex as (a & E & ->). simpl. split; [|done].
    intros l x [[_ <-]|[_ Hl]]%lookup_insert_Some Hx; [done|eauto].
  - destruct Hex as (a & E & [[_ ->]|[_ ->]]).
    { split; intros; apply elem_of_app; right; eauto. }
    simpl. split.
    + intros l x [[_ ->]|[_ Hl]]%lookup_insert_Some Hx.
      * by apply elem_of_given_arg.
      * apply elem_of_app. right. eauto.
    + intros x [[-> Hb]|Hx]%Hdel; apply elem_of_app; right; eauto.
  - destruct Hex as (a & E & ->). simpl. split.
    + intros l x [_ Hl]%lookup_delete_Some Hx. eauto.
    + intros x [[-> Hb]|Hx]%Hdel; eauto.
Qed.

Lemma run_tracked ops : ∀ (U : list Z) st u st',
  (∀ l a, objs st !! l = Some a → a ≠ null → a ∈ U) →
  (∀ a, a ∈ freed st → a ∈ U) →
  run ops st = Some (u, st') →
  (∀ l a, objs st' !! l = Some a → a ≠ null → a ∈ given ops ++ U) ∧
  (∀ a, a ∈ freed st' → a ∈ given ops ++ U).
Proof.
  induction ops as [|o ops IH]; intros U st u st' Hheld Hfreed Hrun;
    simpl in *.
  - by injection Hrun as _ <-.
  - apply bind_inv in Hrun as (u1 & st1 & Hex & Hrun).
    destruct (exec_tracked U _ _ _ _ Hheld Hfreed Hex) as [Hheld1 Hfreed1].
    destruct (IH _ _ _ _ Hheld1 Hfreed1 Hrun) as [Hheld2 Hfreed2].
    assert (∀ a, a ∈ given ops ++ given_by o ++ U →
                 a ∈ (given_by o ++ given ops) ++ U) as Hperm.
    { intros a. rewrite !elem_of_app. tauto. }
    split; eauto.
Qed.

(** Whatever a program does, discipline or not, its owners hold and
    deallocate only addresses that the program gave to a constructor or to
    [reset]. *)
Theorem run_frees_only_given (ops : list op) (st : state) :
  run ops init = Some (tt, st) →
  (∀ a, a ∈ freed st → a ∈ given ops) ∧
  (∀ l a, objs st !! l = Some a → a ≠ null → a ∈ given ops).
Proof.
  intros Hrun.
  destruct (run_tracked ops [] init tt st) as [Hheld Hfreed]; [| |done|].
  - intros l a H. simpl in H. by rewrite lookup_empty in H.
  - by intros a H%elem_of_nil.
  - rewrite app_nil_r in Hheld, Hfreed. done.
Qed.

Lemma run_frees_only_given_witness :
  let ops := [Construct 5; Construct 5; Destroy 1; Destroy 2] in
  let st := State ∅ [5; 5] in
  (∀ a, a ∈ freed st → a ∈ given ops) ∧
  (∀ l a, objs st !! l = Some a → a ≠ null → a ∈ given ops).
Proof.
  exact (run_frees_only_given
           [Construct 5; Construct 5; Destroy 1; Destroy 2]
           (State ∅ [5; 5]) eq_refl).
Defined.

(** ** How the member functions compose *)

Lemma state_eq (st : state) m f :
  m = objs st → f = freed st → State m f = st.
Proof. destruct st. simpl. by intros -> ->. Qed.

(** Handing back to [reset] the address that [release] has just returned
    restores the state: the owner holds its address again and nothing is
    deallocated. *)
Theorem release_reset_roundtrip (st : state) (o : loc) (a : Z) :
  objs st !! o = Some a →
  (let* p := release o in reset o p) st = Some (tt, st).
Proof.
  intros E. rewrite (bind_Some _ _ _ _ _ (release_live _ _ _ E)).
  set (st1 := State (<[o := 0]> (objs st)) (freed st)).
  assert (objs st1 !! o = Some 0) as E1 by apply lookup_insert_eq.
  destruct (decide (a = 0)) as [->|Ha].
  - rewrite (reset_same _ _ _ E1). do 2 f_equal.
    apply state_eq; [|done]. by apply insert_id.
  - rewrite (reset_other _ _ _ _ E1 Ha). cbn [objs freed st1].
    destruct (decide (0 = null)); [|done]. do 2 f_equal.
    apply state_eq; [|done]. rewrite insert_insert_eq. by apply insert_id.
Qed.

Lemma release_reset_roundtrip_witness :
  let st := State {[1%positive := 5]} [3] in
  (let* p := release 1 in reset 1 p) st = Some (tt, st).
Proof.
  exact (release_reset_roundtrip (State {[1%positive := 5]} [3]) 1 5 eq_refl).
Defined.

(** [reset] is idempotent: a second [reset] with the same address finds
    it already in place and does nothing, so the address is not
    deallocated by being given twice. *)
Theorem reset_idempotent (st : state) (o : loc) (a p : Z) :
  objs st !! o = Some a →
  (reset o p ;;; reset o p) st = reset o p st.
Proof.
  intros E. destruct (decide (p = a)) as [->|Hne].
  - rewrite (bind_Some _ _ _ _ _ (reset_same _ _ _ E)).
    by rewrite (reset_same _ _ _ E).
  - rewrite (bind_Some _ _ _ _ _ (reset_other _ _ _ _ E Hne)).
    rewrite (reset_other _ _ _ _ E Hne).
    apply reset_same. cbn [objs]. apply lookup_insert_eq.
Qed.

Lemma reset_idempotent_witness :
  let st := State {[1%positive := 5]} [3] in
  (reset 1 9 ;;; reset 1 9) st = reset 1 9 st.
Proof.
  exact (reset_idempotent (State {[1%positive := 5]} [3]) 1 5 9 eq_refl).
Defined.

Lemma deref_holding this a st :
  objs st !! this = Some a → a ≠ null → deref this st = Some (a, st).
Proof.
  intros E Ha. unfold deref.
  rewrite (bind_Some _ _ _ _ _ (load_live _ _ _ E)).
  by destruct (decide (a = null)).
Qed.

Lemma deref_empty this st :
  objs st !! this = Some null → deref this st = None.
Proof.
  intros E. unfold deref.
  rewrite (bind_Some _ _ _ _ _ (load_live _ _ _ E)).
  by destruct (decide (null = null)).
Qed.

(** [operator*] and [operator->] on an owner of a non-null address yield
    that address and change nothing.  Once the owner has released, or has
    been reset with no argument, it is empty: [operator->] yields null and
    [operator*] has no defined result.  After [reset] to another non-null
    address both yield the new address. *)
Theorem deref_after_release (st : state) (o : loc) (a : Z) :
  objs st !! o = Some a → a ≠ null →
  deref o st = Some (a, st) ∧ arrow o st = Some (a, st) ∧
  (∃ st1, release o st = Some (a, st1) ∧
     deref o st1 = None ∧ arrow o st1 = Some (null, st1)) ∧
  (∃ st2, reset_default o st = Some (tt, st2) ∧
     deref o st2 = None ∧ arrow o st2 = Some (null, st2)) ∧
  (∀ b, b ≠ null → b ≠ a →
     ∃ st3, reset o b st = Some (tt, st3) ∧
       deref o st3 = Some (b, st3) ∧ arrow o st3 = Some (b, st3)).
Proof.
  intros E Ha. split; [by apply deref_holding|].
  split; [by apply load_live|]. split_and!.
  - eexists. split; [by apply release_live|].
    split; [apply deref_empty|apply load_live]; apply lookup_insert_eq.
  - eexists. split; [apply reset_other; [exact E|by intros <-]|].
    split; [apply deref_empty|apply load_live]; apply lookup_insert_eq.
  - intros b Hb Hne. eexists. split; [by apply reset_other|].
    split; [apply deref_holding; [|done]|apply load_live];
      apply lookup_insert_eq.
Qed.

Lemma deref_after_release_witness :
  let st := State {[1%positive := 5]} [] in
  deref 1 st = Some (5, st) ∧ arrow 1 st = Some (5, st) ∧
  (∃ st1, release 1 st = Some (5, st1) ∧
     deref 1 st1 = None ∧ arrow 1 st1 = Some (null, st1)) ∧
  (∃ st2, reset_default 1 st = Some (tt, st2) ∧
     deref 1 st2 = None ∧ arrow 1 st2 = Some (null, st2)) ∧
  (∀ b, b ≠ null → b ≠ 5 →
     ∃ st3, reset 1 b st = Some (tt, st3) ∧
       deref 1 st3 = Some (b, st3) ∧ arrow 1 st3 = Some (b, st3)).
Proof.
  refine (deref_after_release (State {[1%positive := 5]} []) 1 5 eq_refl _).
  discriminate.
Defined.

(** An owner built on [x] and destroyed deallocates [x], once, or nothing
    when [x] is null, and leaves every other object as it was. *)
Theorem ctor_dtor_scope (x : Z) (st : state) :
  (let* o := ctor x in dtor o) st
  = Some (tt, State (objs st)
                    (if decide (x = null) then freed st else x :: freed st)).
Proof.
  unfold ctor. rewrite (bind_Some _ _ _ _ _ (new_obj_eq x st)).
  erewrite dtor_live; [|apply lookup_insert_eq]. cbn [objs freed].
  do 3 f_equal. rewrite delete_insert_eq. apply delete_id, fresh_loc_dead.
Qed.

(** Two owners built on one non-null address deallocate it twice when
    both are destroyed. *)
Theorem construct_twice_double_free (x : Z) (st : state) :
  x ≠ null →
  (let* a := ctor x in let* b := ctor x in dtor a ;;; dtor b) st
  = Some (tt, State (objs st) (x :: x :: freed st)).
Proof.
  intros Hx. unfold ctor.
  rewrite (bind_Some _ _ _ _ _ (new_obj_eq x st)).
  set (a := fresh (dom (objs st))).
  assert (objs st !! a = None) as Ha by apply fresh_loc_dead.
  set (st1 := State (<[a := x]> (objs st)) (freed st)).
  rewrite (bind_Some _ _ _ _ _ (new_obj_eq x st1)).
  set (b := fresh (dom (objs st1))).
  assert (objs st1 !! b = None) as Hb1 by apply fresh_loc_dead.
  cbn [objs freed st1] in *.
  apply lookup_insert_None in Hb1 as [Hb Hab].
  erewrite bind_Some;
    [|apply (dtor_live _ x); cbn [objs];
      rewrite lookup_insert_ne by done; apply lookup_insert_eq].
  erewrite dtor_live;
    [|cbn [objs]; rewrite lookup_delete_ne by done; apply lookup_insert_eq].
  cbn [objs freed]. destruct (decide (x = null)); [done|].
  do 3 f_equal. apply map_eq. intros l.
  destruct (decide (l = b)) as [->|]; [by rewrite lookup_delete_eq|].
  rewrite lookup_delete_ne by done.
  destruct (decide (l = a)) as [->|]; [by rewrite lookup_delete_eq|].
  by rewrite lookup_delete_ne, !lookup_insert_ne by done.
Qed.

Lemma construct_twice_double_free_witness :
  (let* a := ctor 5 in let* b := ctor 5 in dtor a ;;; dtor b) init
  = Some (tt, State (objs init) (5 :: 5 :: freed init)).
Proof.
  refine (construct_twice_double_free 5 init _). discriminate.
Defined.
